(** * skillmodels: the moment-based (WA) estimator, [wa_functions.py]

    A shallow embedding of the functions of
    [src/skillmodels/estimation/wa_functions.py] and the properties the
    specification states about them.

    Numbers.  Python floats are modelled without rounding and without
    overflow: a value is an exact rational, one of the two infinities, or
    NaN, and the four operations follow IEEE 754 on the special values (a
    division by zero gives an infinity or NaN, never an exception, as for
    numpy scalars).  The sign of a zero is not tracked: a zero divisor is
    taken as +0.

    Tables.  A pandas [DataFrame] of measurements is a list of named columns
    of cells, a cell being a rational or the missing-value marker; a pandas
    [Series] is a list of labelled numbers.

    Exceptions.  A Python call that may raise returns a [result].

    Libraries.  The pandas and numpy operations the functions call are
    written out from their documented behaviour ([DataFrame.cov] and
    [mean] over the values that are there, [.loc] raising on a label that
    is not there).  [np.linalg.pinv], patsy's [dmatrix] and the formula
    functions of [transition_functions] are parameters of the functions
    that call them. *)

Set Warnings "-notation-overridden,-ambiguous-paths,-rewrite-rw".
Set Warnings "-redundant-canonical-projection".
From HB Require Import structures.
From mathcomp Require Import boot order algebra.
From Stdlib Require Import String Ascii.

Set Implicit Arguments.
Unset Strict Implicit.
Unset Printing Implicit Defensive.

Import GRing.Theory Num.Theory.
Local Open Scope ring_scope.

(** ** Names *)

Lemma string_eqP : Equality.axiom String.eqb.
Proof. by move=> s t; exact: String.eqb_spec. Qed.

HB.instance Definition _ := hasDecEq.Build string string_eqP.

(** ** Exceptions *)

Inductive exn : Type :=
  | AssertionError
  | ValueError
  | KeyError
  | AttributeError
  | UnboundLocalError
  | LinAlgError
  | PatsyError.

Definition exn_code (e : exn) : nat :=
  match e with
  | AssertionError => 0 | ValueError => 1 | KeyError => 2
  | AttributeError => 3 | UnboundLocalError => 4 | LinAlgError => 5
  | PatsyError => 6
  end.

Definition exn_of_code (n : nat) : exn :=
  match n with
  | 0 => AssertionError | 1 => ValueError | 2 => KeyError
  | 3 => AttributeError | 4 => UnboundLocalError | 5 => LinAlgError
  | _ => PatsyError
  end.

Lemma exn_codeK : cancel exn_code exn_of_code.
Proof. by case. Qed.

HB.instance Definition _ := Equality.copy exn (can_type exn_codeK).

Inductive result (T : Type) : Type :=
  | Ok of T
  | Raise of exn.

Arguments Raise {T} e.

Definition result_enc (T : Type) (r : result T) : T + exn :=
  match r with
  | Ok x => inl x
  | Raise e => inr e
  end.

Definition result_dec (T : Type) (s : T + exn) : result T :=
  match s with
  | inl x => Ok x
  | inr e => Raise e
  end.

Lemma result_encK (T : Type) : cancel (@result_enc T) (@result_dec T).
Proof. by case. Qed.

HB.instance Definition _ (T : eqType) :=
  Equality.copy (result T) (can_type (@result_encK T)).

Definition bind {T U : Type} (r : result T) (k : T -> result U) : result U :=
  match r with
  | Ok x => k x
  | Raise e => Raise e
  end.

Notation "r >>= k" := (bind r k) (at level 50, left associativity).

Definition raises {T : Type} (r : result T) : bool :=
  if r is Raise _ then true else false.

Definition of_option {T : Type} (e : exn) (o : option T) : result T :=
  if o is Some x then Ok x else Raise e.

(** ** Numbers *)

Module Float.

(** [Inf false] is +inf, [Inf true] is -inf. *)
Inductive num : Type :=
  | Fin of rat
  | Inf of bool
  | NaN.

Definition num_enc (x : num) : option (rat + bool) :=
  match x with
  | Fin q => Some (inl q)
  | Inf s => Some (inr s)
  | NaN => None
  end.

Definition num_dec (o : option (rat + bool)) : num :=
  match o with
  | Some (inl q) => Fin q
  | Some (inr s) => Inf s
  | None => NaN
  end.

Lemma num_encK : cancel num_enc num_dec.
Proof. by case. Qed.

HB.instance Definition _ := Equality.copy num (can_type num_encK).

Definition finite (x : num) : bool := if x is Fin _ then true else false.

Definition isnan (x : num) : bool := if x is NaN then true else false.

Definition opp (x : num) : num :=
  match x with
  | Fin a => Fin (- a)
  | Inf s => Inf (~~ s)
  | NaN => NaN
  end.

Definition add (x y : num) : num :=
  match x, y with
  | NaN, _ | _, NaN => NaN
  | Fin a, Fin b => Fin (a + b)
  | Inf s, Fin _ | Fin _, Inf s => Inf s
  | Inf s, Inf t => if s == t then Inf s else NaN
  end.

Definition sub (x y : num) : num := add x (opp y).

Definition mul (x y : num) : num :=
  match x, y with
  | NaN, _ | _, NaN => NaN
  | Fin a, Fin b => Fin (a * b)
  | Inf s, Fin a | Fin a, Inf s =>
      if a == 0 then NaN else Inf (s (+) (a < 0))
  | Inf s, Inf t => Inf (s (+) t)
  end.

Definition div (x y : num) : num :=
  match x, y with
  | NaN, _ | _, NaN => NaN
  | Inf _, Inf _ => NaN
  | Inf s, Fin b => Inf (s (+) (b < 0))
  | Fin _, Inf _ => Fin 0
  | Fin a, Fin b =>
      if b == 0 then (if a == 0 then NaN else Inf (a < 0)) else Fin (a / b)
  end.

(** [x ** 2] *)
Definition sqr (x : num) : num := mul x x.

Definition of_nat (n : nat) : num := Fin n%:R.

(** A cell of a table: a rational, or the missing-value marker. *)
Definition of_cell (c : option rat) : num :=
  if c is Some q then Fin q else NaN.

Definition sum (s : seq num) : num := foldr add (Fin 0) s.

(** [np.mean] of a list of numbers: the sum over the length; the mean of
    the empty list is 0/0. *)
Definition np_mean (s : seq num) : num := div (sum s) (of_nat (size s)).

(** The mean as pandas takes it ([skipna=True]): NaN entries are left out,
    and the mean of no entry is NaN. *)
Definition nanmean (s : seq num) : num :=
  let v := [seq x <- s | ~~ isnan x] in
  if v is [::] then NaN else div (sum v) (of_nat (size v)).

End Float.

Import Float.

Declare Scope num_scope.
Delimit Scope num_scope with F.
Bind Scope num_scope with num.
Infix "+" := add : num_scope.
Infix "-" := sub : num_scope.
Infix "*" := mul : num_scope.
Infix "/" := div : num_scope.

(** ** Tables and series *)

Section Frames.

Variable K : eqType.

(** A [DataFrame]: the row labels and the named columns, in order. *)
Record DataFrame : Type := mkFrame {
  index : seq nat;
  columns : seq (K * seq (option rat))
}.

Definition names (data : DataFrame) : seq K := [seq c.1 | c <- columns data].

(** [data[name]]: the column of that name. *)
Fixpoint assoc (V : Type) (s : seq (K * V)) (k : K) : option V :=
  match s with
  | [::] => None
  | (k', v) :: s' => if k' == k then Some v else assoc s' k
  end.

Definition column (data : DataFrame) (name : K) : result (seq (option rat)) :=
  of_option KeyError (assoc (columns data) name).

(** [Series.mean()] of a column. *)
Definition column_mean (c : seq (option rat)) : num :=
  nanmean [seq of_cell x | x <- c].

(** The rows on which both columns have a value. *)
Definition complete_pairs (a b : seq (option rat)) : seq (rat * rat) :=
  pmap (fun p => if p is (Some x, Some y) then Some (x, y) else None)
       (zip a b).

Definition rsum (s : seq rat) : rat := foldr +%R 0 s.

Definition rmean (s : seq rat) : rat := rsum s / (size s)%:R.

(** One entry of [data.cov()]: the sample covariance (divisor [n - 1]) over
    the rows on which both columns have a value; NaN with fewer than two
    such rows. *)
Definition cov (a b : seq (option rat)) : num :=
  let ps := complete_pairs a b in
  let n := size ps in
  if (n <= 1)%N then NaN
  else
    let ma := rmean [seq p.1 | p <- ps] in
    let mb := rmean [seq p.2 | p <- ps] in
    Fin (rsum [seq (p.1 - ma) * (p.2 - mb) | p <- ps] / (n.-1)%:R).

(** A table of numbers labelled on both axes, as [data.cov()] returns. *)
Definition LabelledMatrix : Type := seq (K * seq (K * num)).

Definition DataFrame_cov (data : DataFrame) : LabelledMatrix :=
  [seq (a.1, [seq (b.1, cov a.2 b.2) | b <- columns data])
  | a <- columns data].

(** [cov.loc[r, c]] *)
Definition loc (m : LabelledMatrix) (r c : K) : result num :=
  of_option KeyError (assoc m r) >>= fun row =>
  of_option KeyError (assoc row c).

(** A [Series]: labelled numbers. *)
Definition Series : Type := seq (K * num).

(** [pd.Series(index=labels)]: every entry NaN. *)
Definition Series_new (labels : seq K) : Series := [seq (k, NaN) | k <- labels].

(** [s[k]] *)
Definition Series_get (s : Series) (k : K) : result num :=
  of_option KeyError (assoc s k).

(** [s[k] = v]: every entry labelled [k] is set; a new label is appended. *)
Definition Series_set (s : Series) (k : K) (v : num) : Series :=
  if k \in [seq p.1 | p <- s]
  then [seq (p.1, if p.1 == k then v else p.2) | p <- s]
  else rcons s (k, v).

(** [data.mean()]: the means of the columns, labelled by their names. *)
Definition DataFrame_mean (data : DataFrame) : Series :=
  [seq (c.1, column_mean c.2) | c <- columns data].

End Frames.

Arguments mkFrame {K} index columns.

(** ** [loadings_from_covs] *)

(** A normalization: the empty list, or the name of the normalized
    measurement and the value it is normalized to. *)
Definition normalization : Type := option (string * rat).

Section LoadingsFromCovs.

Variables (cov_ : LabelledMatrix string) (load_norm : string)
          (load_norm_val : rat).

(** The inner loop over [m_prime], with the list [estimates] so far. *)
Fixpoint estimates_loop (m : string) (ms : seq string) (estimates : seq num)
  : result (seq num) :=
  match ms with
  | [::] => Ok estimates
  | m_prime :: ms' =>
      if m_prime \notin [:: m; load_norm] then
        loc cov_ m m_prime >>= fun c =>
        let nominator := (Fin load_norm_val * c)%F in
        loc cov_ load_norm m_prime >>= fun denominator =>
        estimates_loop m ms' (rcons estimates (nominator / denominator)%F)
      else estimates_loop m ms' estimates
  end.

(** The outer loop over [m], with the series [loadings] so far. *)
Fixpoint loadings_loop (measurements : seq string) (ms : seq string)
    (loadings : Series string) : result (Series string) :=
  match ms with
  | [::] => Ok loadings
  | m :: ms' =>
      if m != load_norm then
        estimates_loop m measurements [::] >>= fun estimates =>
        loadings_loop measurements ms'
          (Series_set loadings m (np_mean estimates))
      else
        loadings_loop measurements ms'
          (Series_set loadings m (Fin load_norm_val))
  end.

End LoadingsFromCovs.

Definition loadings_from_covs (data : DataFrame string)
    (normalization_ : normalization) : result (Series string) :=
  let measurements := names data in
  let nmeas := size measurements in
  if ~~ (3 <= nmeas)%N then Raise AssertionError
  else
    let cov_ := DataFrame_cov data in
    if normalization_ is Some (load_norm, load_norm_val) then
      let loadings := Series_new measurements in
      loadings_loop cov_ load_norm load_norm_val measurements measurements
        loadings
    else Raise ValueError.

(** ** [intercepts_from_means] *)

Section InterceptsFromMeans.

Variables (data : DataFrame string) (loadings : Series string)
          (intercept_norm : string) (intercept_norm_val : rat)
          (factor_mean : num).

(** The loop over the measurements, with the series [intercepts] so far. *)
Fixpoint intercepts_loop (ms : seq string) (intercepts : Series string)
  : result (Series string) :=
  match ms with
  | [::] => Ok intercepts
  | meas :: ms' =>
      if meas != intercept_norm then
        Series_get loadings meas >>= fun loading =>
        column data meas >>= fun c =>
        intercepts_loop ms'
          (Series_set intercepts meas (column_mean c - loading * factor_mean)%F)
      else
        intercepts_loop ms'
          (Series_set intercepts meas (Fin intercept_norm_val))
  end.

End InterceptsFromMeans.

(** The factor mean is [None] when no intercept is normalized. *)
Definition intercepts_from_means (data : DataFrame string)
    (normalization_ : normalization) (loadings : Series string)
  : result (Series string * option num) :=
  let measurements := names data in
  match normalization_ with
  | None => Ok (DataFrame_mean data, None)
  | Some (intercept_norm, intercept_norm_val) =>
      let intercepts := Series_new measurements in
      Series_get loadings intercept_norm >>= fun loading =>
      column data intercept_norm >>= fun c =>
      let factor_mean :=
        ((column_mean c - Fin intercept_norm_val) / loading)%F in
      intercepts_loop data loadings intercept_norm intercept_norm_val
        factor_mean measurements intercepts >>= fun intercepts' =>
      Ok (intercepts', Some factor_mean)
  end.

(** ** [factor_covs_and_measurement_error_variances]

    [meas_cov] and [loadings] are given over one list of measurement names,
    [labels]: the index and the columns of [meas_cov] and the index of
    [loadings].  pandas aligns the operands of [divide] and of [*=] on
    their labels; over one index the alignment is the identity, and the
    operations are entrywise.  [meas_cov] is the list of its rows. *)

Definition string_leb (s t : string) : bool := String.leb s t.

Section CovarianceDecomposer.

Variable labels : seq string.

Definition entry (m : seq (seq num)) (i j : nat) : num :=
  nth NaN (nth [::] m i) j.

(** [meas_cov.divide(loadings, axis=0).divide(loadings, axis=1)] *)
Definition scale_cov (meas_cov : seq (seq num)) (loadings : seq num)
  : seq (seq num) :=
  let n := size labels in
  [seq [seq (entry meas_cov i j / nth NaN loadings i / nth NaN loadings j)%F
       | j <- iota 0 n]
  | i <- iota 0 n].

(** [scaled_meas_cov.values[diag_bool]] *)
Definition diag_values (m : seq (seq num)) : seq num :=
  [seq entry m i i | i <- iota 0 (size labels)].

(** [scaled_meas_cov.values[diag_bool] = np.nan] *)
Definition blank_diag (m : seq (seq num)) : seq (seq num) :=
  let n := size labels in
  [seq [seq (if i == j then NaN else entry m i j) | j <- iota 0 n]
  | i <- iota 0 n].

(** The position of a label; [.loc] raises on a label that is not there. *)
Definition position (m : string) : result nat :=
  if m \in labels then Ok (seq.index m labels) else Raise KeyError.

Fixpoint positions (ms : seq string) : result (seq nat) :=
  match ms with
  | [::] => Ok [::]
  | m :: ms' =>
      position m >>= fun i => positions ms' >>= fun is' => Ok (i :: is')
  end.

(** [scaled_meas_cov.loc[meas_list1, meas_list2]], as the list of its
    columns. *)
Definition loc_block (m : seq (seq num)) (meas_list1 meas_list2 : seq string)
  : result (seq (seq num)) :=
  positions meas_list1 >>= fun rows =>
  positions meas_list2 >>= fun cols =>
  Ok [seq [seq entry m i j | i <- rows] | j <- cols].

(** [relevant.mean().mean()]: the mean of the column means, NaN left out
    at both levels. *)
Definition mean_mean (relevant_columns : seq (seq num)) : num :=
  nanmean [seq nanmean c | c <- relevant_columns].

(** [diag_series[meas_list] -= cov_estimate]: the new values are computed
    from the series as it is, then stored. *)
Definition Series_sub_at (diag_series : Series string)
    (meas_list : seq string) (cov_estimate : num)
  : result (Series string) :=
  let fix values ms :=
    match ms with
    | [::] => Ok [::]
    | m :: ms' =>
        Series_get diag_series m >>= fun v =>
        values ms' >>= fun vs => Ok ((m, (v - cov_estimate)%F) :: vs)
    end in
  values meas_list >>= fun vs =>
  Ok (foldl (fun s p => Series_set s p.1 p.2) diag_series vs).

Variable meas_per_factor : seq (string * seq string).

(** [meas_per_factor[factor]] *)
Definition meas_of (factor : string) : result (seq string) :=
  of_option KeyError (assoc meas_per_factor factor).

(** The state of the two loops: [factor_covs] and [diag_series]. *)
Definition decomposer_state : Type := (seq num * Series string)%type.

Section Loops.

Variables (scaled_meas_cov : seq (seq num)) (f1 : nat)
          (meas_list1 : seq string).

(** The inner loop over [enumerate(factors)], from position [f2] on. *)
Fixpoint inner_loop (f2 : nat) (fs : seq string) (st : decomposer_state)
  : result decomposer_state :=
  match fs with
  | [::] => Ok st
  | factor2 :: fs' =>
      meas_of factor2 >>= fun meas_list2 =>
      if (f1 <= f2)%N then
        loc_block scaled_meas_cov meas_list1 meas_list2 >>= fun relevant =>
        let cov_estimate := mean_mean relevant in
        let factor_covs := rcons st.1 cov_estimate in
        (if f2 == f1
         then Series_sub_at st.2 meas_list1 cov_estimate
         else Ok st.2) >>= fun diag_series =>
        inner_loop f2.+1 fs' (factor_covs, diag_series)
      else inner_loop f2.+1 fs' st
  end.

End Loops.

(** The outer loop over [enumerate(factors)], from position [f1] on. *)
Fixpoint outer_loop (scaled_meas_cov : seq (seq num)) (factors : seq string)
    (f1 : nat) (fs : seq string) (st : decomposer_state)
  : result decomposer_state :=
  match fs with
  | [::] => Ok st
  | factor1 :: fs' =>
      meas_of factor1 >>= fun meas_list1 =>
      inner_loop scaled_meas_cov f1 meas_list1 0 factors st >>= fun st' =>
      outer_loop scaled_meas_cov factors f1.+1 fs' st'
  end.

Definition factor_covs_and_measurement_error_variances
    (meas_cov : seq (seq num)) (loadings : seq num)
  : result (seq num * Series string) :=
  let factors := sort string_leb [seq p.1 | p <- meas_per_factor] in
  let scaled_meas_cov := scale_cov meas_cov loadings in
  let diag_data := diag_values scaled_meas_cov in
  let diag_series := zip labels diag_data in
  let scaled_meas_cov := blank_diag scaled_meas_cov in
  outer_loop scaled_meas_cov factors 0 factors ([::], diag_series)
  >>= fun st =>
  let factor_covs := st.1 in
  let meas_error_variances :=
    [seq (p.1.1, (p.1.2 * sqr p.2)%F) | p <- zip st.2 loadings] in
  Ok (factor_covs, meas_error_variances).

End CovarianceDecomposer.

(** ** [iv_reg_array_dict]

    The columns of the wide table are named by pairs (category, name).
    The formula functions of [transition_functions] and patsy's [dmatrix]
    are outside this module: [tf] is the lookup of a formula function by
    its name, [dmatrix] builds the values of a design matrix from a formula
    and a table. *)

Record arr_dict : Type := mkArrDict {
  depvar_arr : seq (option rat);
  indepvars_arr : seq (seq rat);
  instruments_arr : seq (seq rat);
  non_missing_index : seq nat
}.

Section IvRegArrayDict.

Variable formula : Type.
Variable tf : string -> option (seq string -> seq (seq string) -> formula * formula).
Variable dmatrix : formula -> DataFrame string -> result (seq (seq rat)).

Definition key : Type := (string * string)%type.

(** [data[keys]]: the listed columns, in the order listed. *)
Fixpoint select_columns (data : DataFrame key) (keys : seq key)
  : result (seq (key * seq (option rat))) :=
  match keys with
  | [::] => Ok [::]
  | k :: keys' =>
      column data k >>= fun c =>
      select_columns data keys' >>= fun cs => Ok ((k, c) :: cs)
  end.

Definition select (data : DataFrame key) (keys : seq key)
  : result (DataFrame key) :=
  select_columns data keys >>= fun cs => Ok (mkFrame (index data) cs).

(** Row [i] has a value in every column. *)
Definition row_complete (data : DataFrame key) (i : nat) : bool :=
  all (fun c => isSome (nth None c.2 i)) (columns data).

(** [data.dropna()]: the rows with a value in every column. *)
Definition dropna (data : DataFrame key) : DataFrame key :=
  let keep := [seq row_complete data i | i <- iota 0 (size (index data))] in
  mkFrame (mask keep (index data))
          [seq (c.1, mask keep c.2) | c <- columns data].

(** [data[k] = v]: a constant column, replacing the column [k] or added
    after the last one. *)
Definition set_constant (data : DataFrame key) (k : key) (v : rat)
  : DataFrame key :=
  let c := nseq (size (index data)) (Some v) in
  mkFrame (index data)
    (if k \in names data
     then [seq (p.1, if p.1 == k then c else p.2) | p <- columns data]
     else rcons (columns data) (k, c)).

(** [data[category]]: the columns of one category, under their names. *)
Definition category_frame (data : DataFrame key) (category : string)
  : DataFrame string :=
  mkFrame (index data)
    [seq (c.1.2, c.2) | c <- columns data & c.1.1 == category].

Definition used_variables (depvar_name : string)
    (indepvar_names : seq string) (instrument_names : seq (seq string))
  : seq key :=
  [:: ("y"%string, depvar_name)]
  ++ [seq ("x"%string, indep) | indep <- indepvar_names]
  ++ [seq ("z"%string, instr) | instr <- flatten instrument_names].

Definition iv_reg_array_dict (depvar_name : string)
    (indepvar_names : seq string) (instrument_names : seq (seq string))
    (transition_name : string) (data : DataFrame key) : result arr_dict :=
  select data (used_variables depvar_name indepvar_names instrument_names)
  >>= fun data =>
  let data := dropna data in
  let data :=
    foldl (fun d category => set_constant d (category, "constant"%string) 1)
          data [:: "x"; "z"]%string in
  column data ("y"%string, depvar_name) >>= fun depvar =>
  of_option AttributeError
    (tf (String.append "iv_formula_" transition_name))
  >>= fun formula_func =>
  let: (indep_formula, instr_formula) :=
    formula_func indepvar_names instrument_names in
  dmatrix indep_formula (category_frame data "x"%string) >>= fun indepvars =>
  dmatrix instr_formula (category_frame data "z"%string) >>= fun instruments =>
  Ok (mkArrDict depvar indepvars instruments (index data)).

End IvRegArrayDict.

(** ** [iv_reg], [_iv_math], [_iv_gmm_weights]

    The arrays are matrices of numbers; a one-dimensional array of length
    [n] is a column.  [np.linalg.pinv] is outside this module: [pinv] is
    the call, which raises [LinAlgError] when the decomposition inside it
    fails.  What the two [except] branches print is left out. *)

Section IvReg.

Variable pinv : forall m : nat, 'M[num]_m -> result 'M[num]_m.

(** [np.dot] *)
Definition dot (m n p : nat) (a : 'M[num]_(m, n)) (b : 'M[num]_(n, p))
  : 'M[num]_(m, p) :=
  \matrix_(i, j) \big[add/Fin 0]_l (a i l * b l j)%F.

Definition _iv_gmm_weights (nobs k_prime : nat) (z : 'M[num]_(nobs, k_prime))
    (u : option 'cV[num]_nobs) : result 'M[num]_k_prime :=
  match u with
  | None =>
      match pinv (map_mx (fun a => a / of_nat nobs)%F (dot z^T z)) with
      | Ok w => Ok w
      | Raise _ => Raise UnboundLocalError
      end
  | Some u =>
      let u_squared := map_mx sqr u in
      let outerprod i a b := (z i b * z i a)%F in
      let s :=
        \matrix_(a, b)
          ((\big[add/Fin 0]_i (u_squared i ord0 * outerprod i a b)%F)
           / of_nat nobs)%F in
      pinv s
  end.

Definition _iv_math (nobs k k_prime : nat) (y : 'cV[num]_nobs)
    (x : 'M[num]_(nobs, k)) (z : 'M[num]_(nobs, k_prime))
    (w : 'M[num]_k_prime) : result 'cV[num]_k :=
  let xTz := dot x^T z in
  let helper := dot xTz w in
  let inverse_part := pinv (dot helper xTz^T) in
  let y_part := dot helper (dot z^T y) in
  match inverse_part with
  | Ok inverse_part => Ok (dot inverse_part y_part)
  | Raise _ => Raise UnboundLocalError
  end.

Definition iv_reg (nobs k k_prime : nat) (depvar_arr : 'cV[num]_nobs)
    (indepvars_arr : 'M[num]_(nobs, k))
    (instruments_arr : 'M[num]_(nobs, k_prime)) (fit_method : string)
  : result 'cV[num]_k :=
  let y := depvar_arr in
  let x := indepvars_arr in
  let z := instruments_arr in
  _iv_gmm_weights z None >>= fun w =>
  _iv_math y x z w >>= fun beta =>
  if fit_method == "optimal"%string then
    let u := \matrix_(i, j) (y i j - dot x beta i j)%F in
    _iv_gmm_weights z (Some u) >>= fun w =>
    _iv_math y x z w
  else Ok beta.

End IvReg.

(** * Specification

    The quantities the specification names, written from its words, to be
    compared with what the functions above compute. *)

(** ** Loadings and intercepts *)

(** The sample covariance of two named columns of a table. *)
Definition cov_of (K : eqType) (data : DataFrame K) (m m' : K) : num :=
  if (assoc (columns data) m, assoc (columns data) m') is (Some a, Some b)
  then cov a b else NaN.

(** One ratio of covariances. *)
Definition ratio (data : DataFrame string) (load_norm : string)
    (load_norm_val : rat) (m m_prime : string) : num :=
  (Fin load_norm_val * cov_of data m m_prime
   / cov_of data load_norm m_prime)%F.

(** The measurements other than [m] and the normalized one. *)
Definition others (data : DataFrame string) (load_norm m : string)
  : seq string :=
  [seq m' <- names data | (m' != m) && (m' != load_norm)].

(** The loading of measurement [m]. *)
Definition loading_spec (data : DataFrame string) (load_norm : string)
    (load_norm_val : rat) (m : string) : num :=
  if m != load_norm
  then np_mean [seq ratio data load_norm load_norm_val m m'
               | m' <- others data load_norm m]
  else Fin load_norm_val.

(** The sample mean of a named column. *)
Definition mean_of (data : DataFrame string) (m : string) : num :=
  if assoc (columns data) m is Some c then column_mean c else NaN.

(** The loading of a measurement in a loadings vector. *)
Definition loading_of (loadings : Series string) (m : string) : num :=
  if assoc loadings m is Some l then l else NaN.

Definition factor_mean_spec (data : DataFrame string)
    (loadings : Series string) (intercept_norm : string)
    (intercept_norm_val : rat) : num :=
  ((mean_of data intercept_norm - Fin intercept_norm_val)
   / loading_of loadings intercept_norm)%F.

Definition intercept_spec (data : DataFrame string)
    (loadings : Series string) (intercept_norm : string)
    (intercept_norm_val : rat) (m : string) : num :=
  if m != intercept_norm
  then (mean_of data m
        - loading_of loadings m
          * factor_mean_spec data loadings intercept_norm intercept_norm_val)%F
  else Fin intercept_norm_val.

(** ** Factor covariances and measurement error variances *)

Definition pos (labels : seq string) (m : string) : nat :=
  seq.index m labels.

(** The measurements of a factor. *)
Definition meas (meas_per_factor : seq (string * seq string)) (f : string)
  : seq string :=
  if assoc meas_per_factor f is Some l then l else [::].

(** The factors, in sorted order. *)
Definition sorted_factors (meas_per_factor : seq (string * seq string))
  : seq string :=
  sort string_leb [seq p.1 | p <- meas_per_factor].

(** The series that gives each label the value [v] has there. *)
Definition graph (labels : seq string) (v : string -> num) : Series string :=
  [seq (m, v m) | m <- labels].

(** [e] taken off the values at the labels of [l]. *)
Definition update (v : string -> num) (l : seq string) (e : num)
  : string -> num :=
  fun m => if m \in l then (v m - e)%F else v m.

(** The estimate for a pair of factors, as a mean of column means. *)
Definition est (labels : seq string)
    (meas_per_factor : seq (string * seq string)) (scaled : seq (seq num))
    (f g : string) : num :=
  mean_mean
    [seq [seq entry scaled (pos labels a) (pos labels b)
         | a <- meas meas_per_factor f]
    | b <- meas meas_per_factor g].

(** The upper triangle of a table over the factors [fs], row by row: each
    factor with itself and with every later factor. *)
Fixpoint upper (e : string -> string -> num) (fs : seq string) : seq num :=
  if fs is f :: fs' then [seq e f g | g <- f :: fs'] ++ upper e fs'
  else [::].

(** The de-scaled variance of a measurement. *)
Definition self_variance (labels : seq string) (meas_cov : seq (seq num))
    (loadings : seq num) (m : string) : num :=
  entry (scale_cov labels meas_cov loadings) (pos labels m) (pos labels m).

(** The de-scaled variances after the loops: for each factor in turn, its
    variance estimate taken off the variances of its measurements. *)
Definition own_variances (labels : seq string)
    (meas_per_factor : seq (string * seq string)) (meas_cov : seq (seq num))
    (loadings : seq num) : string -> num :=
  foldl
    (fun v f =>
       update v (meas meas_per_factor f)
         (est labels meas_per_factor
            (blank_diag labels (scale_cov labels meas_cov loadings)) f f))
    (self_variance labels meas_cov loadings)
    (sorted_factors meas_per_factor).

Definition rat_of (x : num) : rat := if x is Fin q then q else 0.

(** The loading of a measurement. *)
Definition loading (labels : seq string) (loadings : seq num) (m : string)
  : num :=
  nth NaN loadings (pos labels m).

(** The de-scaled covariance of two measurements:
    [cov[a, b] / (loading_a * loading_b)]. *)
Definition descaled (labels : seq string) (meas_cov : seq (seq num))
    (loadings : seq num) (a b : string) : num :=
  (entry meas_cov (pos labels a) (pos labels b)
   / (loading labels loadings a * loading labels loadings b))%F.

(** The mean of the de-scaled covariances over the pairs of measurements of
    two factors; for one factor with itself, a measurement is not paired
    with itself. *)
Definition block_mean (labels : seq string)
    (meas_per_factor : seq (string * seq string)) (meas_cov : seq (seq num))
    (loadings : seq num) (f g : string) : num :=
  np_mean
    [seq descaled labels meas_cov loadings p.1 p.2
    | p <- [seq (a, b) | a <- meas meas_per_factor f,
                         b <- meas meas_per_factor g]
    & ~~ ((f == g) && (p.1 == p.2))].

(** ** Assembly of the IV arrays *)

(** A table without rows. *)
Definition zero_rows (K : eqType) (d : DataFrame K) : bool :=
  (index d == [::]) && all (fun c => c.2 == [::]) (columns d).

(** ** The IV estimator on finite arrays *)

(** A matrix of rationals as an array of numbers. *)
Definition lift (m n : nat) (a : 'M[rat]_(m, n)) : 'M[num]_(m, n) :=
  map_mx Fin a.





(** The one-step estimate. *)
Definition one_step (pinv : forall m : nat, 'M[num]_m -> result 'M[num]_m)
    (nobs k k_prime : nat) (y : 'cV[num]_nobs) (x : 'M[num]_(nobs, k))
    (z : 'M[num]_(nobs, k_prime)) : result 'cV[num]_k :=
  _iv_gmm_weights pinv z None >>= fun w => _iv_math pinv y x z w.

Definition recip (c : num) : num :=
  match c with
  | Fin q => Fin q^-1
  | Inf _ => Fin 0
  | NaN => NaN
  end.

(** [pinv] for one regressor: the pseudo-inverse of a 1 x 1 matrix is the
    inverse of its entry, or 0 when the entry is 0. *)
Definition pinv_scalar (m : nat) (a : 'M[num]_m) : result 'M[num]_m :=
  if m == 1%N then Ok (map_mx recip a) else Raise LinAlgError.

(** ** Sample inputs *)

Module Sample.

(** Three measurements of one factor; the first and the second have sample
    covariance zero. *)
Definition table : DataFrame string :=
  mkFrame [:: 0; 1; 2]%N
    [:: ("a"%string, [:: Some 1; Some 2; Some 3]);
        ("b"%string, [:: Some 1; Some 0; Some 1]);
        ("c"%string, [:: Some 2; Some 5; Some 7])].

Definition loadings : Series string :=
  [:: ("a"%string, Fin 1); ("b"%string, Fin 2); ("c"%string, Fin 3)].

(** Two factors with two measurements each. *)
Definition labels : seq string := [:: "m1"; "m2"; "m3"; "m4"]%string.

Definition meas_per_factor : seq (string * seq string) :=
  [:: ("fac2", [:: "m3"; "m4"]); ("fac1", [:: "m1"; "m2"])]%string.

Definition meas_cov : seq (seq num) :=
  [:: [:: Fin 4; Fin 2; Fin 2; Fin 1];
      [:: Fin 2; Fin 8; Fin 2; Fin 2];
      [:: Fin 2; Fin 2; Fin 3; Fin 1];
      [:: Fin 1; Fin 2; Fin 1; Fin 5]].

Definition loadings_row : seq num := [:: Fin 1; Fin 2; Fin 1; Fin 1].

(** A wide table in which every row misses a used variable. *)
Definition wide : DataFrame key :=
  mkFrame [:: 10; 11]%N
    [:: (("y", "f_t1"), [:: Some 1; None]);
        (("x", "f_t0"), [:: None; Some 2]);
        (("z", "m_t0"), [:: Some 3; Some 4]);
        (("c", "age"), [:: Some 5; Some 6])]%string.

(** The used variables of [wide], for the dependent variable [f_t1], the
    regressor [f_t0] and the instrument [m_t0]. *)
Definition selected : DataFrame key :=
  mkFrame [:: 10; 11]%N
    [:: (("y", "f_t1"), [:: Some 1; None]);
        (("x", "f_t0"), [:: None; Some 2]);
        (("z", "m_t0"), [:: Some 3; Some 4])]%string.

(** Modelled from the spec: a formula specification, which [dmatrix] turns
    into a design matrix with a fixed list of columns; here the list of the
    columns itself.  The formula strings of [transition_functions] are not
    in this module. *)
Definition formula : Type := seq string.

(** Modelled from the spec: the formula function of the linear transition
    ([iv_formula_linear] of [transition_functions], which is not in this
    module): the variables and the constant, for the regressors and for the
    instruments. *)
Definition linear (indep : seq string) (instr : seq (seq string))
  : formula * formula :=
  (rcons indep "constant"%string, rcons (flatten instr) "constant"%string).

(** Modelled from the spec: the lookup of a formula function by its name;
    one transition is registered. *)
Definition tf (name : string)
  : option (seq string -> seq (seq string) -> formula * formula) :=
  if name == "iv_formula_linear"%string then Some linear else None.

(** Modelled from the spec: the design matrix of a formula on a table, the
    rows of the listed columns (patsy's [dmatrix] is not in this module). *)
Definition dmatrix (f : formula) (d : DataFrame string)
  : result (seq (seq rat)) :=
  if all (fun c => c \in names d) f then
    Ok [seq [seq odflt 0 (nth None (odflt [::] (assoc (columns d) c)) i)
            | c <- f]
       | i <- iota 0 (size (index d))]
  else Raise PatsyError.



(** One observation, one regressor. *)
Definition one : 'M[rat]_1 := 1%:M.

Definition two : 'M[rat]_1 := 2%:M.


End Sample.

(** * Facts *)

(** ** Tables and series *)

Section FrameFacts.

Variable K : eqType.

Lemma assoc_map (V W : Type) (f : V -> W) (s : seq (K * V)) (k : K) :
  assoc [seq (p.1, f p.2) | p <- s] k = omap f (assoc s k).
Proof. by elim: s => [|[k' v] s IH] //=; case: ifP. Qed.

Lemma assoc_mem (V : Type) (s : seq (K * V)) (k : K) :
  k \in [seq p.1 | p <- s] -> exists v, assoc s k = Some v.
Proof.
elim: s => [|[k' v] s IH] //=; rewrite in_cons eq_sym.
by case: ifP => [_ _|_ /= /IH //]; exists v.
Qed.

Lemma assoc_notin (V : Type) (s : seq (K * V)) (k : K) :
  k \notin [seq p.1 | p <- s] -> assoc s k = None.
Proof.
elim: s => [|[k' v] s IH] //=; rewrite in_cons eq_sym negb_or.
by case: ifP => //= _ /IH.
Qed.

Lemma assoc_graph (V : Type) (f : K -> V) (s : seq K) (k : K) :
  k \in s -> assoc [seq (m, f m) | m <- s] k = Some (f k).
Proof.
elim: s => [|m s IH] //=; rewrite in_cons eq_sym.
by case: (m =P k) => [-> //|_ /= /IH].
Qed.

Lemma labels_graph (V : Type) (f : K -> V) (s : seq K) :
  [seq p.1 | p <- [seq (m, f m) | m <- s]] = s.
Proof. by elim: s => //= m s ->. Qed.

Lemma Series_new_labels (s : seq K) : [seq p.1 | p <- Series_new s] = s.
Proof. by elim: s => //= m s ->. Qed.

Lemma loc_cov (data : DataFrame K) (m m' : K) :
  m \in names data -> m' \in names data ->
  loc (DataFrame_cov data) m m' = Ok (cov_of data m m').
Proof.
move=> /assoc_mem [a Ha] /assoc_mem [b Hb].
rewrite /loc /DataFrame_cov /cov_of Ha Hb.
rewrite (assoc_map (fun c => [seq (b0.1, cov c b0.2) | b0 <- columns data])).
by rewrite Ha /= (assoc_map (cov a)) Hb.
Qed.

Lemma loc_exn (m : LabelledMatrix K) (r c : K) (e : exn) :
  loc m r c = Raise e -> e = KeyError.
Proof.
rewrite /loc; case: (assoc m r) => [row|] /=; last by case.
by case: (assoc row c) => [v|] //=; case.
Qed.

Lemma Series_set_labels (s : Series K) (k : K) (v : num) :
  k \in [seq p.1 | p <- s] ->
  [seq p.1 | p <- Series_set s k v] = [seq p.1 | p <- s].
Proof. by rewrite /Series_set => ->; rewrite -map_comp. Qed.

(** Storing a value under each label of [ms], one after the other. *)
Lemma Series_set_fold (val : K -> num) (ms : seq K) (s : Series K) :
  {subset ms <= [seq p.1 | p <- s]} ->
  foldl (fun s m => Series_set s m (val m)) s ms
  = [seq (p.1, if p.1 \in ms then val p.1 else p.2) | p <- s].
Proof.
elim: ms s => [|m ms IH] s Hsub /=.
  by rewrite -[LHS]map_id; apply: eq_map => -[].
have Hm : m \in [seq p.1 | p <- s] by apply: Hsub; rewrite mem_head.
have Hsub' : {subset ms <= [seq p.1 | p <- Series_set s m (val m)]}.
  move=> x Hx; rewrite Series_set_labels //.
  by apply: Hsub; rewrite in_cons Hx orbT.
rewrite (IH _ Hsub') /Series_set Hm -map_comp.
apply: eq_map => -[k v] /=.
rewrite in_cons; case: (k =P m) => [->|_] /=; last by [].
by case: ifP.
Qed.

Lemma Series_get_mem (s : Series K) (k : K) :
  k \in [seq p.1 | p <- s] ->
  Series_get s k = Ok (if assoc s k is Some l then l else NaN).
Proof. by rewrite /Series_get => /assoc_mem [v ->]. Qed.

Lemma column_mem (data : DataFrame K) (m : K) :
  m \in names data ->
  column data m = Ok (if assoc (columns data) m is Some c then c else [::]).
Proof. by rewrite /column => /assoc_mem [v ->]. Qed.

End FrameFacts.

(** ** [loadings_from_covs] *)

Section LoadingsFacts.

Variables (data : DataFrame string) (load_norm : string) (load_norm_val : rat).

Hypothesis norm_in : load_norm \in names data.

Lemma estimates_loopE (m : string) (ms : seq string) (acc : seq num) :
  m \in names data -> {subset ms <= names data} ->
  estimates_loop (DataFrame_cov data) load_norm load_norm_val m ms acc
  = Ok (acc ++ [seq ratio data load_norm load_norm_val m m'
               | m' <- ms & (m' != m) && (m' != load_norm)]).
Proof.
move=> Hm; elim: ms acc => [|m' ms IH] acc Hsub /=; first by rewrite cats0.
have Hm' : m' \in names data by apply: Hsub; rewrite mem_head.
have Hms : {subset ms <= names data}.
  by move=> x Hx; apply: Hsub; rewrite in_cons Hx orbT.
rewrite !inE negb_or; case: ifP => _; last exact: IH.
by rewrite !loc_cov //= IH // cat_rcons.
Qed.

Lemma loadings_loopE (ms : seq string) (s : Series string) :
  {subset ms <= names data} ->
  loadings_loop (DataFrame_cov data) load_norm load_norm_val (names data) ms s
  = Ok (foldl
          (fun s m =>
             Series_set s m (loading_spec data load_norm load_norm_val m))
          s ms).
Proof.
elim: ms s => [|m ms IH] s Hsub //=.
have Hm : m \in names data by apply: Hsub; rewrite mem_head.
have Hms : {subset ms <= names data}.
  by move=> x Hx; apply: Hsub; rewrite in_cons Hx orbT.
rewrite /loading_spec; case: ifP => _; last exact: IH.
by rewrite estimates_loopE //= IH.
Qed.

(** The loadings vector in closed form. *)
Lemma loadings_from_covsE :
  (3 <= size (names data))%N ->
  loadings_from_covs data (Some (load_norm, load_norm_val))
  = Ok [seq (m, loading_spec data load_norm load_norm_val m)
       | m <- names data].
Proof.
move=> Hsz; rewrite /loadings_from_covs Hsz /= loadings_loopE //.
have Hsub : {subset names data <= [seq p.1 | p <- Series_new (names data)]}.
  by rewrite Series_new_labels.
rewrite (Series_set_fold _ Hsub) /Series_new -map_comp.
by congr Ok; apply/eq_in_map => m /= ->.
Qed.

End LoadingsFacts.

Lemma estimates_loop_exn (c : LabelledMatrix string) (load_norm : string)
    (load_norm_val : rat) (m : string) (ms : seq string) (acc : seq num)
    (e : exn) :
  estimates_loop c load_norm load_norm_val m ms acc = Raise e -> e = KeyError.
Proof.
elim: ms acc => [|m' ms IH] acc //=; case: ifP => _; last exact: IH.
case E1: (loc c m m') => [v1|e1] /=; last by case=> <-; exact: loc_exn E1.
case E2: (loc c load_norm m') => [v2|e2] /=; first exact: IH.
by case=> <-; exact: loc_exn E2.
Qed.

Lemma loadings_loop_exn (c : LabelledMatrix string) (load_norm : string)
    (load_norm_val : rat) (measurements ms : seq string) (s : Series string)
    (e : exn) :
  loadings_loop c load_norm load_norm_val measurements ms s = Raise e ->
  e = KeyError.
Proof.
elim: ms s => [|m ms IH] s //=; case: ifP => _; last exact: IH.
case E: (estimates_loop _ _ _ _ _ _) => [v|e1] /=; first exact: IH.
by case=> <-; exact: estimates_loop_exn E.
Qed.

(** *** A zero denominator *)

Lemma add_nonfinite_l (x y : num) : ~~ finite x -> ~~ finite (x + y)%F.
Proof. by case: x y => [a|s|] [b|t|] //= _; case: ifP. Qed.

Lemma add_nonfinite_r (x y : num) : ~~ finite y -> ~~ finite (x + y)%F.
Proof. by case: x y => [a|s|] [b|t|] //= _; case: ifP. Qed.

Lemma sum_nonfinite (s : seq num) :
  has (fun x => ~~ finite x) s -> ~~ finite (sum s).
Proof.
elim: s => [|x s IH] //= /orP [Hx|/IH Hs]; first exact: add_nonfinite_l.
exact: add_nonfinite_r.
Qed.

Lemma np_mean_nonfinite (s : seq num) :
  has (fun x => ~~ finite x) s -> ~~ finite (np_mean s).
Proof.
by move/sum_nonfinite; rewrite /np_mean /of_nat; case: (sum s) => [a|b|] //=.
Qed.

Lemma div_zero_nonfinite (x : num) : ~~ finite (x / Fin 0)%F.
Proof. by case: x => [a|s|] //=; rewrite ?eqxx; case: ifP. Qed.

(** The loading of a measurement whose ratios have a zero denominator. *)
Lemma loading_spec_nonfinite (data : DataFrame string) (name : string)
    (value : rat) (m m' : string) :
  m' \in names data -> m' != name -> m != name -> m != m' ->
  cov_of data name m' = Fin 0 ->
  ~~ finite (loading_spec data name value m).
Proof.
move=> Hm' Hne Hmn Hmm' Hcov.
rewrite /loading_spec Hmn; apply: np_mean_nonfinite.
apply/hasP; exists (ratio data name value m m').
  by apply: map_f; rewrite mem_filter Hm' Hne eq_sym Hmm'.
by rewrite /ratio Hcov; exact: div_zero_nonfinite.
Qed.

(** ** [intercepts_from_means] *)

Section InterceptFacts.

Variables (data : DataFrame string) (loadings : Series string).
Variables (intercept_norm : string) (intercept_norm_val : rat).

Lemma intercepts_loopE (fm : num) (ms : seq string) (s : Series string) :
  fm = factor_mean_spec data loadings intercept_norm intercept_norm_val ->
  {subset ms <= names data} -> {subset ms <= [seq p.1 | p <- loadings]} ->
  intercepts_loop data loadings intercept_norm intercept_norm_val fm ms s
  = Ok (foldl
          (fun s m =>
             Series_set s m
               (intercept_spec data loadings intercept_norm
                  intercept_norm_val m))
          s ms).
Proof.
move=> ->; elim: ms s => [|m ms IH] s Hd Hl //=.
have Hmd : m \in names data by apply: Hd; rewrite mem_head.
have Hml : m \in [seq p.1 | p <- loadings] by apply: Hl; rewrite mem_head.
have Hd' : {subset ms <= names data}.
  by move=> x Hx; apply: Hd; rewrite in_cons Hx orbT.
have Hl' : {subset ms <= [seq p.1 | p <- loadings]}.
  by move=> x Hx; apply: Hl; rewrite in_cons Hx orbT.
rewrite /intercept_spec; case: ifP => _; last exact: IH.
rewrite /Series_get /column /mean_of /loading_of.
case: (assoc_mem Hmd) => c ->; case: (assoc_mem Hml) => l -> /=.
exact: IH.
Qed.

(** The intercepts and the factor mean in closed form. *)
Lemma intercepts_from_meansE :
  intercept_norm \in names data ->
  {subset names data <= [seq p.1 | p <- loadings]} ->
  intercepts_from_means data (Some (intercept_norm, intercept_norm_val))
    loadings
  = Ok ([seq (m, intercept_spec data loadings intercept_norm
                   intercept_norm_val m) | m <- names data],
        Some (factor_mean_spec data loadings intercept_norm
                intercept_norm_val)).
Proof.
move=> Hin Hsub.
have Hl : intercept_norm \in [seq p.1 | p <- loadings] by exact: Hsub.
rewrite /intercepts_from_means (Series_get_mem Hl) /= (column_mem Hin) /=.
have Hfm : ((column_mean (if assoc (columns data) intercept_norm is Some c
                          then c else [::]) - Fin intercept_norm_val)
            / (if assoc loadings intercept_norm is Some l then l else NaN))%F
           = factor_mean_spec data loadings intercept_norm intercept_norm_val.
  rewrite /factor_mean_spec /mean_of /loading_of.
  by case: (assoc_mem Hin) => c ->.
rewrite (intercepts_loopE _ Hfm (fun x Hx => Hx) Hsub) /= Hfm.
have Hsub' : {subset names data <= [seq p.1 | p <- Series_new (names data)]}.
  by rewrite Series_new_labels.
rewrite (Series_set_fold _ Hsub') /Series_new -map_comp /=.
by congr (Ok (_, _)); apply/eq_in_map => m /= ->.
Qed.

End InterceptFacts.

(** ** [factor_covs_and_measurement_error_variances] *)

(** *** The two loops *)

Section DecomposerLoops.

Variables (labels : seq string) (meas_per_factor : seq (string * seq string)).
Variable scaled : seq (seq num).

Local Abbreviation mlist := (meas meas_per_factor).
Local Abbreviation factors := (sorted_factors meas_per_factor).
Local Abbreviation est_ := (est labels meas_per_factor scaled).

Hypothesis meas_labels : forall f, f \in factors -> {subset mlist f <= labels}.

Lemma positionsE (l : seq string) :
  {subset l <= labels} -> positions labels l = Ok [seq pos labels m | m <- l].
Proof.
elim: l => [|m l IH] Hsub //=.
have Hm : m \in labels by apply: Hsub; rewrite mem_head.
have Hl : {subset l <= labels}.
  by move=> x Hx; apply: Hsub; rewrite in_cons Hx orbT.
by rewrite /position Hm /= (IH Hl).
Qed.

Lemma loc_blockE (f g : string) :
  f \in factors -> g \in factors ->
  loc_block labels scaled (mlist f) (mlist g)
  = Ok [seq [seq entry scaled (pos labels a) (pos labels b) | a <- mlist f]
       | b <- mlist g].
Proof.
move=> Hf Hg; rewrite /loc_block !positionsE /=; try exact: meas_labels.
by rewrite -map_comp; congr Ok; apply: eq_map => b /=; rewrite -map_comp.
Qed.

Lemma Series_sub_at_graph (v : string -> num) (l : seq string) (e : num) :
  {subset l <= labels} ->
  Series_sub_at (graph labels v) l e = Ok (graph labels (update v l e)).
Proof.
move=> Hsub; rewrite /Series_sub_at.
set values := (X in X l >>= _).
have -> : values l = Ok [seq (m, (v m - e)%F) | m <- l].
  elim: l Hsub => [|m l IH] Hsub //=.
  have Hm : m \in labels by apply: Hsub; rewrite mem_head.
  rewrite /Series_get assoc_graph //= IH //.
  by move=> x Hx; apply: Hsub; rewrite in_cons Hx orbT.
rewrite /=; congr Ok.
have -> : forall s, foldl (fun s p => Series_set s p.1 p.2) s
                      [seq (m, (v m - e)%F) | m <- l]
                    = foldl (fun s m => Series_set s m (v m - e)%F) s l.
  by elim: l {Hsub values} => [|m l IH] s //=.
have Hsub' : {subset l <= [seq p.1 | p <- graph labels v]}.
  by rewrite labels_graph.
rewrite (Series_set_fold (fun m => (v m - e)%F) Hsub') /graph -map_comp.
exact: eq_map.
Qed.

Lemma meas_ofE (f : string) :
  f \in factors -> meas_of meas_per_factor f = Ok (mlist f).
Proof.
by rewrite /sorted_factors mem_sort /meas_of /meas => /assoc_mem [l ->].
Qed.

(** The inner loop past the position of the first factor. *)
Lemma inner_loop_after (f1 : nat) (F1 : string) (f2 : nat) (fs : seq string)
    (covs : seq num) (s : Series string) :
  F1 \in factors -> {subset fs <= factors} -> (f1 < f2)%N ->
  inner_loop labels meas_per_factor scaled f1 (mlist F1) f2 fs (covs, s)
  = Ok (covs ++ [seq est_ F1 g | g <- fs], s).
Proof.
move=> HF1; elim: fs f2 covs => [|g fs IH] f2 covs Hsub Hlt /=.
  by rewrite cats0.
have Hg : g \in factors by apply: Hsub; rewrite mem_head.
have Hfs : {subset fs <= factors}.
  by move=> x Hx; apply: Hsub; rewrite in_cons Hx orbT.
rewrite meas_ofE //= (ltnW Hlt) loc_blockE //= gtn_eqF //=.
by rewrite IH ?cat_rcons // ltnS ltnW.
Qed.

(** The inner loop up to and past the position of the first factor. *)
Lemma inner_loopE (f1 : nat) (F1 : string) (f2 : nat) (fs : seq string)
    (covs : seq num) (v : string -> num) :
  F1 \in factors -> {subset fs <= factors} ->
  (f2 <= f1)%N -> (f1 < f2 + size fs)%N -> nth F1 fs (f1 - f2) = F1 ->
  inner_loop labels meas_per_factor scaled f1 (mlist F1) f2 fs
    (covs, graph labels v)
  = Ok (covs ++ [seq est_ F1 g | g <- drop (f1 - f2) fs],
        graph labels (update v (mlist F1) (est_ F1 F1))).
Proof.
move=> HF1; elim: fs f2 covs v => [|g fs IH] f2 covs v Hsub Hle Hlt Hnth.
  by move: Hlt; rewrite addn0 ltnNge Hle.
have Hg : g \in factors by apply: Hsub; rewrite mem_head.
have Hfs : {subset fs <= factors}.
  by move=> x Hx; apply: Hsub; rewrite in_cons Hx orbT.
rewrite /= meas_ofE //=.
move: Hle; rewrite leq_eqVlt => /orP [/eqP E|Hlt'].
  move: Hnth; rewrite -E subnn /= => Eg; rewrite Eg leqnn eqxx.
  rewrite loc_blockE //= (Series_sub_at_graph _ _ (meas_labels HF1)) /=.
  by rewrite inner_loop_after // cat_rcons.
rewrite leqNgt Hlt' /=.
have E : (f1 - f2 = (f1 - f2.+1).+1)%N by rewrite subnS prednK // subn_gt0.
rewrite E /= IH //; first by rewrite addSnnS.
by move: Hnth; rewrite E.
Qed.

(** The outer loop over the factors that follow [pre]. *)
Lemma outer_loopE (pre fs : seq string) (covs : seq num)
    (v : string -> num) :
  factors = pre ++ fs ->
  outer_loop labels meas_per_factor scaled factors (size pre) fs
    (covs, graph labels v)
  = Ok (covs ++ upper est_ fs,
        graph labels
          (foldl (fun v f => update v (mlist f) (est_ f f)) v fs)).
Proof.
elim: fs pre covs v => [|f fs IH] pre covs v E /=; first by rewrite cats0.
have Hf : f \in factors by rewrite E mem_cat mem_head orbT.
rewrite meas_ofE //=.
have H1 : (size pre < 0 + size factors)%N.
  by rewrite add0n E size_cat /= addnS ltnS leq_addr.
have H2 : nth f factors (size pre - 0) = f.
  by rewrite subn0 E nth_cat ltnn subnn.
rewrite (inner_loopE covs v Hf (fun x Hx => Hx) (leq0n _) H1 H2) /=.
rewrite subn0 {2}E drop_size_cat //=.
have -> : (size pre).+1 = size (rcons pre f) by rewrite size_rcons.
by rewrite IH ?cat_rcons //= -catA.
Qed.

End DecomposerLoops.

Lemma entry_mk (F : nat -> nat -> num) (n i j : nat) :
  (i < n)%N -> (j < n)%N ->
  entry [seq [seq F i j | j <- iota 0 n] | i <- iota 0 n] i j = F i j.
Proof.
move=> Hi Hj; rewrite /entry (nth_map 0%N) ?size_iota // nth_iota // add0n.
by rewrite (nth_map 0%N) ?size_iota // nth_iota.
Qed.

Lemma map_nth_index (T : Type) (x0 : T) (labels : seq string) (xs : seq T) :
  uniq labels -> size xs = size labels ->
  xs = [seq nth x0 xs (seq.index m labels) | m <- labels].
Proof.
move=> Hu Hsz; apply: (@eq_from_nth _ x0); first by rewrite size_map.
move=> i Hi; rewrite Hsz in Hi.
by rewrite (nth_map ""%string) // index_uniq.
Qed.

(** *** The result in terms of the loops' estimates *)

Section DecomposerClosedForm.

Variables (labels : seq string) (meas_per_factor : seq (string * seq string)).
Variables (meas_cov : seq (seq num)) (loadings : seq num).

Local Abbreviation mlist := (meas meas_per_factor).
Local Abbreviation factors := (sorted_factors meas_per_factor).
Local Abbreviation scaled := (scale_cov labels meas_cov loadings).
Local Abbreviation blanked := (blank_diag labels scaled).

Hypothesis labels_uniq : uniq labels.
Hypothesis loadings_size : size loadings = size labels.
Hypothesis meas_labels : forall f, f \in factors -> {subset mlist f <= labels}.

Lemma decomposerE :
  factor_covs_and_measurement_error_variances labels meas_per_factor
    meas_cov loadings
  = Ok (upper (est labels meas_per_factor blanked) factors,
        [seq (m, (own_variances labels meas_per_factor meas_cov loadings m
                  * sqr (nth NaN loadings (pos labels m)))%F)
        | m <- labels]).
Proof.
rewrite /factor_covs_and_measurement_error_variances.
have -> : zip labels (diag_values labels scaled)
          = graph labels (self_variance labels meas_cov loadings).
  rewrite /diag_values /graph /self_variance.
  have Hsz : size [seq entry scaled i i | i <- iota 0 (size labels)]
             = size labels by rewrite size_map size_iota.
  rewrite [X in zip _ X](map_nth_index NaN labels_uniq Hsz).
  rewrite -[X in zip X _]map_id zip_map; apply/eq_in_map => m Hm /=.
  by rewrite (nth_map 0%N) ?size_iota ?index_mem // nth_iota ?index_mem.
rewrite (@outer_loopE labels meas_per_factor blanked meas_labels [::]) //=.
congr (Ok (_, _)); rewrite -/(own_variances _ _ _ _) /graph.
rewrite [X in zip _ X](map_nth_index NaN labels_uniq loadings_size).
rewrite zip_map -map_comp.
exact: eq_map.
Qed.

End DecomposerClosedForm.

(** *** Means of finite numbers *)

Lemma finiteE (x : num) : finite x -> x = Fin (rat_of x).
Proof. by case: x. Qed.

Lemma sum_Fin (xs : seq rat) :
  sum [seq Fin x | x <- xs] = Fin (\sum_(x <- xs) x).
Proof.
elim: xs => [|x xs IH] /=; first by rewrite big_nil.
by rewrite -/(sum _) IH big_cons.
Qed.

Lemma np_mean_Fin (xs : seq rat) :
  np_mean [seq Fin x | x <- xs]
  = if xs is [::] then NaN else Fin ((\sum_(x <- xs) x) / (size xs)%:R).
Proof.
rewrite /np_mean sum_Fin size_map /of_nat /=.
case: xs => [|x xs]; first by rewrite big_nil !eqxx.
by rewrite pnatr_eq0.
Qed.

Lemma nanmean_Fin (xs : seq rat) :
  nanmean [seq Fin x | x <- xs]
  = if xs is [::] then NaN else Fin ((\sum_(x <- xs) x) / (size xs)%:R).
Proof.
rewrite /nanmean.
have -> : [seq x <- [seq Fin x | x <- xs] | ~~ isnan x]
          = [seq Fin x | x <- xs].
  by apply/all_filterP/allP => x /mapP [y _ ->].
case: xs => [|x xs] //.
by rewrite -/(np_mean [seq Fin y | y <- x :: xs]) np_mean_Fin.
Qed.

Lemma nanmean_blank (A : Type) (d : pred A) (F : A -> rat) (l : seq A) :
  nanmean [seq (if d a then NaN else Fin (F a)) | a <- l]
  = nanmean [seq Fin (F a) | a <- l & ~~ d a].
Proof.
rewrite /nanmean.
have -> : [seq x <- [seq (if d a then NaN else Fin (F a)) | a <- l]
          | ~~ isnan x] = [seq Fin (F a) | a <- l & ~~ d a].
  by elim: l => [|a l IH] //=; case: (d a) => /=; rewrite IH.
have -> // : [seq x <- [seq Fin (F a) | a <- l & ~~ d a] | ~~ isnan x]
             = [seq Fin (F a) | a <- l & ~~ d a].
by elim: [seq a <- l | ~~ d a] => [|a l' IH] //=; rewrite IH.
Qed.

(** A block in which every column has the same number of entries that are
    not blanked: the mean of the column means is the mean of the entries. *)
Section UniformBlocks.

Variables (A B : eqType) (d : A -> B -> bool) (F : A -> B -> rat).
Variables (l1 : seq A) (l2 : seq B) (c : nat).

Hypothesis uniform : forall b, b \in l2 -> count (fun a => ~~ d a b) l1 = c.

Local Abbreviation kept :=
  [seq p <- [seq (a, b) | a <- l1, b <- l2] | ~~ d p.1 p.2].

Lemma kept_sum (G : A -> B -> rat) :
  \sum_(p <- kept) G p.1 p.2
  = \sum_(b <- l2) \sum_(a <- l1 | ~~ d a b) G a b.
Proof.
rewrite big_filter big_mkcond /= big_allpairs_dep /= exchange_big /=.
by apply: eq_bigr => b _; rewrite -big_mkcond.
Qed.

Lemma kept_size : size kept = (size l2 * c)%N.
Proof.
rewrite size_filter -sum1_count big_mkcond /= big_allpairs_dep /=.
rewrite exchange_big /=.
rewrite (eq_big_seq (fun=> c)) => [b Hb|].
  by rewrite -big_mkcond /= sum1_count uniform.
by rewrite big_const_seq count_predT iter_addn_0 mulnC.
Qed.

Lemma mean_mean_uniform :
  mean_mean
    [seq [seq (if d a b then NaN else Fin (F a b)) | a <- l1] | b <- l2]
  = np_mean [seq Fin (F p.1 p.2) | p <- kept].
Proof.
rewrite /mean_mean -map_comp.
have Hcol b : b \in l2 ->
    nanmean [seq (if d a b then NaN else Fin (F a b)) | a <- l1]
    = if c is 0%N then NaN
      else Fin ((\sum_(a <- l1 | ~~ d a b) F a b) / c%:R).
  move=> Hb; rewrite (nanmean_blank (d^~ b) (F^~ b)).
  rewrite (map_comp Fin) nanmean_Fin size_map size_filter uniform //.
  rewrite big_map big_filter.
  case E: [seq a <- l1 | ~~ d a b] => [|a l].
    by move/(congr1 size): E; rewrite size_filter uniform // => ->.
  by move/(congr1 size): E; rewrite size_filter uniform // => ->.
rewrite (map_comp Fin (fun p => F p.1 p.2)) np_mean_Fin size_map kept_size.
rewrite big_map (kept_sum F).
have -> : [seq (nanmean \o
                (fun b => [seq (if d a b then NaN else Fin (F a b))
                          | a <- l1])) b | b <- l2]
          = [seq (if c is 0%N then NaN
                  else Fin ((\sum_(a <- l1 | ~~ d a b) F a b) / c%:R))
            | b <- l2].
  by apply/eq_in_map => b Hb /=; exact: Hcol.
case: c uniform kept_size Hcol => [|c'] Hu Hk _.
  have -> : kept = [::] by apply: size0nil; rewrite Hk muln0.
  rewrite /nanmean.
  have -> // : [seq x <- [seq NaN | _ <- l2] | ~~ isnan x] = [::].
  by elim: (l2) => [|b l IH].
rewrite (map_comp Fin) nanmean_Fin big_map.
case E: kept => [|p k]; case E2: l2 => [|b l] //.
- by move/(congr1 size): E; rewrite Hk E2.
- by move/(congr1 size): E; rewrite Hk E2.
rewrite -E2 size_map -mulr_suml natrM invfM -!mulrA.
by rewrite E2 /= [_^-1 / _]mulrC.
Qed.

End UniformBlocks.

(** *** The estimates as means of de-scaled covariances *)

Lemma upper_eq (e e' : string -> string -> num) (fs : seq string) :
  (forall f g, f \in fs -> g \in fs -> e f g = e' f g) ->
  upper e fs = upper e' fs.
Proof.
elim: fs => [|f fs IH] //= H.
rewrite H ?mem_head //; congr (_ :: _ ++ _).
  by apply/eq_in_map => g Hg; rewrite H ?mem_head // in_cons Hg orbT.
by apply: IH => a b Ha Hb; rewrite H // in_cons ?Ha ?Hb orbT.
Qed.

Section DecomposerSpec.

Variables (labels : seq string) (meas_per_factor : seq (string * seq string)).
Variables (meas_cov : seq (seq num)) (loadings : seq num).

Local Abbreviation n := (size labels).
Local Abbreviation mlist := (meas meas_per_factor).
Local Abbreviation factors := (sorted_factors meas_per_factor).
Local Abbreviation scaled := (scale_cov labels meas_cov loadings).
Local Abbreviation blanked := (blank_diag labels scaled).
Local Abbreviation descaled_ := (descaled labels meas_cov loadings).
Local Abbreviation block_mean_ :=
  (block_mean labels meas_per_factor meas_cov loadings).
Local Abbreviation s := (fun a b => rat_of (descaled_ a b)).

Hypothesis labels_uniq : uniq labels.
Hypothesis loadings_size : size loadings = size labels.
Hypothesis loadings_nonzero :
  all (fun l => finite l && (l != Fin 0)) loadings.
Hypothesis meas_cov_finite :
  forall i j, (i < n)%N -> (j < n)%N -> finite (entry meas_cov i j).
Hypothesis factors_uniq : uniq [seq p.1 | p <- meas_per_factor].
Hypothesis meas_uniq : forall f, f \in factors -> uniq (mlist f).
Hypothesis meas_labels : forall f, f \in factors -> {subset mlist f <= labels}.
Hypothesis meas_disjoint :
  forall f g, f \in factors -> g \in factors -> f != g ->
  forall m, m \in mlist f -> m \notin mlist g.

Lemma loading_fin (i : nat) :
  (i < n)%N -> exists2 x, nth NaN loadings i = Fin x & x != 0.
Proof.
rewrite -loadings_size => Hi.
move/all_nthP: loadings_nonzero => /(_ NaN _ Hi).
by case: (nth NaN loadings i) => [x|b|] //= Hx; exists x.
Qed.

(** The de-scaling, entry by entry. *)
Lemma scale_covE (i j : nat) :
  (i < n)%N -> (j < n)%N ->
  entry scaled i j
  = (entry meas_cov i j / (nth NaN loadings i * nth NaN loadings j))%F
  /\ finite (entry scaled i j).
Proof.
move=> Hi Hj; rewrite /scale_cov entry_mk //.
case: (loading_fin Hi) => x -> Hx; case: (loading_fin Hj) => y -> Hy.
rewrite (finiteE (meas_cov_finite Hi Hj)) /=.
by rewrite mulf_eq0 (negbTE Hx) /= (negbTE Hy) /= invfM mulrA.
Qed.

Lemma scaledE (a b : string) :
  a \in labels -> b \in labels ->
  entry scaled (pos labels a) (pos labels b) = descaled_ a b
  /\ descaled_ a b = Fin (s a b).
Proof.
move=> Ha Hb.
have Hi : (pos labels a < n)%N by rewrite /pos index_mem.
have Hj : (pos labels b < n)%N by rewrite /pos index_mem.
case: (scale_covE Hi Hj) => E Hfin; split; first by [].
by rewrite -[descaled_ a b]E; exact: finiteE.
Qed.

Lemma blankedE (a b : string) :
  a \in labels -> b \in labels ->
  entry blanked (pos labels a) (pos labels b)
  = if a == b then NaN else Fin (s a b).
Proof.
move=> Ha Hb.
have Hi : (pos labels a < n)%N by rewrite /pos index_mem.
have Hj : (pos labels b < n)%N by rewrite /pos index_mem.
rewrite /blank_diag entry_mk //.
have -> : (pos labels a == pos labels b) = (a == b).
  apply/eqP/eqP => [E|-> //].
  by rewrite -(nth_index a Ha) -/(pos labels a) E /pos nth_index.
by case: ifP => // _; case: (scaledE Ha Hb) => -> ->.
Qed.

(** The number of measurements of [f] other than a measurement of [g]. *)
Lemma count_others (f g : string) (b : string) :
  f \in factors -> g \in factors -> b \in mlist g ->
  count (fun a => ~~ (a == b)) (mlist f)
  = if f == g then (size (mlist f)).-1 else size (mlist f).
Proof.
move=> Hf Hg Hb.
have := count_predC (pred1 b) (mlist f).
rewrite -[count (predC _) _]/(count (fun a => ~~ (a == b)) _).
case: (f =P g) => [E|/eqP Hne].
  by rewrite count_uniq_mem ?meas_uniq // E Hb add1n => <-.
have Hnb : b \notin mlist f.
  by apply: (@meas_disjoint g f) => //; rewrite eq_sym.
by move/count_memPn: Hnb => ->; rewrite add0n.
Qed.

Lemma estE (f g : string) :
  f \in factors -> g \in factors ->
  est labels meas_per_factor blanked f g = block_mean_ f g.
Proof.
move=> Hf Hg; rewrite /est.
have -> : [seq [seq entry blanked (pos labels a) (pos labels b)
               | a <- mlist f] | b <- mlist g]
        = [seq [seq (if a == b then NaN else Fin (s a b)) | a <- mlist f]
          | b <- mlist g].
  apply/eq_in_map => b Hb; apply/eq_in_map => a Ha.
  by rewrite blankedE //; [exact: (meas_labels Hf) | exact: (meas_labels Hg)].
rewrite (@mean_mean_uniform _ _ (fun a b => a == b) s _ _ _
           (fun b Hb => count_others Hf Hg Hb)).
rewrite /block_mean; congr np_mean.
have -> : [seq p <- [seq (a, b) | a <- mlist f, b <- mlist g]
          | ~~ (p.1 == p.2)]
        = [seq p <- [seq (a, b) | a <- mlist f, b <- mlist g]
          | ~~ ((f == g) && (p.1 == p.2))].
  apply/eq_in_filter => -[a b] /allpairsP [[a' b'] /= [Ha Hb [-> ->]]].
  case: (f =P g) => //= /eqP Hne.
  by apply/eqP => E; move: (meas_disjoint Hf Hg Hne Ha); rewrite E Hb.
apply/eq_in_map => -[a b]; rewrite mem_filter => /andP [_].
case/allpairsP => -[a' b'] /= [Ha Hb [-> ->]].
by case: (scaledE (meas_labels Hf Ha) (meas_labels Hg Hb)) => _ ->.
Qed.

(** A measurement of the factor [f] loses the variance estimate of [f],
    and of no other factor. *)
Lemma own_variances_in (fs : seq string) (v : string -> num) (f m : string) :
  {subset fs <= factors} -> uniq fs -> f \in fs -> m \in mlist f ->
  foldl (fun v f => update v (mlist f)
                      (est labels meas_per_factor blanked f f)) v fs m
  = (v m - est labels meas_per_factor blanked f f)%F.
Proof.
have Hout (gs : seq string) (w : string -> num) :
    (forall g, g \in gs -> m \notin mlist g) ->
    foldl (fun v f => update v (mlist f)
                        (est labels meas_per_factor blanked f f)) w gs m
    = w m.
  elim: gs w => [|g gs IH] w Hn //=.
  have Hn' : forall h, h \in gs -> m \notin mlist h.
    by move=> h Hh; apply: Hn; rewrite in_cons Hh orbT.
  by rewrite (IH _ Hn') /update (negbTE (Hn g (mem_head _ _))).
elim: fs v => [|g fs IH] v //= Hsub /andP [Hg Hu].
have Hgf : g \in factors by apply: Hsub; rewrite mem_head.
have Hfs : {subset fs <= factors}.
  by move=> x Hx; apply: Hsub; rewrite in_cons Hx orbT.
rewrite in_cons => /orP [/eqP ->|Hf] Hm.
  rewrite Hout /update ?Hm // => h Hh.
  apply: (@meas_disjoint g h) => //; first exact: Hfs.
  by apply/eqP => E; move: Hg; rewrite E Hh.
rewrite IH // /update.
have -> // : (m \in mlist g) = false.
apply/negbTE; apply: (@meas_disjoint f g) => //; first exact: Hfs.
by apply/eqP => E; move: Hg; rewrite -E Hf.
Qed.

Lemma decomposer_specE :
  factor_covs_and_measurement_error_variances labels meas_per_factor
    meas_cov loadings
  = Ok (upper block_mean_ factors,
        [seq (m, (own_variances labels meas_per_factor meas_cov loadings m
                  * sqr (loading labels loadings m))%F) | m <- labels]).
Proof.
rewrite (decomposerE _ labels_uniq loadings_size meas_labels).
by congr (Ok (_, _)); apply: upper_eq => f g; exact: estE.
Qed.

Lemma own_variancesE (f m : string) :
  f \in factors -> m \in mlist f ->
  own_variances labels meas_per_factor meas_cov loadings m
  = (descaled_ m m - block_mean_ f f)%F.
Proof.
move=> Hf Hm; rewrite /own_variances.
have Hfu : uniq factors by rewrite /sorted_factors sort_uniq.
rewrite (own_variances_in _ (fun x Hx => Hx) Hfu Hf Hm).
have Hl := meas_labels Hf Hm.
by rewrite estE // /self_variance; case: (scaledE Hl Hl) => ->.
Qed.

End DecomposerSpec.

(** ** [iv_reg], [_iv_math], [_iv_gmm_weights] *)





(** *** The pseudo-inverse *)

Section Penrose.

Variable m : nat.
Implicit Types a x y : 'M[rat]_m.




End Penrose.

(** *** The functions on finite arrays *)

Section IvFacts.

Variable pinv : forall m : nat, 'M[num]_m -> result 'M[num]_m.

Variables nobs k k_prime : nat.

Hypothesis nonempty : (0 < nobs)%N || (k_prime == 0)%N.




End IvFacts.








(** ** [iv_reg_array_dict] *)

Lemma select_columns_names (data : DataFrame key) (keys : seq key)
    (cs : seq (key * seq (option rat))) :
  select_columns data keys = Ok cs -> [seq c.1 | c <- cs] = keys.
Proof.
elim: keys cs => [|k keys IH] cs /=; first by case=> <-.
case: (column data k) => [c|e] //=.
case E: (select_columns data keys) => [cs'|e] //= [<-] /=.
by rewrite (IH _ E).
Qed.

Lemma mask_none (T : Type) (m : bitseq) (s : seq T) :
  count id m = 0%N -> mask m s = [::].
Proof.
elim: m s => [|b m IH] [|x s] //=; case: b => //=.
by rewrite add0n => /IH.
Qed.

Lemma dropna_zero_rows (data : DataFrame key) :
  index (dropna data) = [::] -> zero_rows (dropna data).
Proof.
rewrite /zero_rows /dropna /=.
set keep := [seq row_complete data i | i <- iota 0 (size (index data))].
move=> E; rewrite E eqxx /=.
have Hc : count id keep = 0%N.
  by rewrite -(@size_mask _ keep (index data)) ?E // size_map size_iota.
by apply/allP => c /mapP [c' _ ->] /=; rewrite mask_none.
Qed.

Lemma set_constant_zero_rows (data : DataFrame key) (k : key) (v : rat) :
  zero_rows data -> zero_rows (set_constant data k v).
Proof.
rewrite /zero_rows /set_constant /= => /andP [/eqP E Hall]; rewrite E eqxx /=.
case: ifP => _.
  apply/allP => c /mapP [c' Hc' ->] /=.
  by case: ifP => // _; exact: (allP Hall).
by rewrite all_rcons /= Hall.
Qed.

Lemma set_constant_names (data : DataFrame key) (k k' : key) (v : rat) :
  k' \in names data -> k' \in names (set_constant data k v).
Proof.
rewrite /set_constant /names /=; case: ifP => _.
  by rewrite -map_comp.
by rewrite map_rcons mem_rcons in_cons => ->; rewrite orbT.
Qed.

Lemma category_frame_zero_rows (data : DataFrame key) (category : string) :
  zero_rows data -> zero_rows (category_frame data category).
Proof.
rewrite /zero_rows /category_frame /= => /andP [-> Hall] /=.
apply/allP => c /mapP [c' Hc' ->] /=.
by move: Hc'; rewrite mem_filter => /andP [_ /(allP Hall)].
Qed.

Lemma column_zero_rows (K : eqType) (data : DataFrame K) (k : K) :
  zero_rows data -> k \in names data -> column data k = Ok [::].
Proof.
rewrite /zero_rows /column /names => /andP [_].
elim: (columns data) => [|[k' c] cs IH] //= /andP [/eqP -> Hall].
rewrite in_cons eq_sym; case: ifP => //= _; exact: IH.
Qed.

(** * The claims *)

(** ** Facts about the sample inputs *)

Lemma sample_cov_zero : cov_of Sample.table "a"%string "b"%string = Fin 0.
Proof. by apply/eqP; vm_compute. Qed.

Lemma sample_factors :
  sorted_factors Sample.meas_per_factor = [:: "fac1"; "fac2"]%string.
Proof. by []. Qed.

Lemma sample_loadings_nonzero :
  all (fun l => finite l && (l != Fin 0)) Sample.loadings_row.
Proof. by vm_compute. Qed.

Lemma sample_meas_cov_finite (i j : nat) :
  (i < size Sample.labels)%N -> (j < size Sample.labels)%N ->
  finite (entry Sample.meas_cov i j).
Proof. by case: i => [|[|[|[|i]]]]; case: j => [|[|[|[|j]]]]. Qed.

Lemma sample_meas_uniq (f : string) :
  f \in sorted_factors Sample.meas_per_factor ->
  uniq (meas Sample.meas_per_factor f).
Proof. by rewrite sample_factors !inE => /orP [] /eqP ->. Qed.

Lemma sample_meas_labels (f : string) :
  f \in sorted_factors Sample.meas_per_factor ->
  {subset meas Sample.meas_per_factor f <= Sample.labels}.
Proof.
rewrite sample_factors !inE => /orP [] /eqP -> m;
  by rewrite !inE => /orP [] /eqP ->.
Qed.

Lemma sample_meas_disjoint (f g : string) :
  f \in sorted_factors Sample.meas_per_factor ->
  g \in sorted_factors Sample.meas_per_factor -> f != g ->
  forall m, m \in meas Sample.meas_per_factor f ->
            m \notin meas Sample.meas_per_factor g.
Proof.
rewrite sample_factors !inE => /orP [] /eqP -> /orP [] /eqP -> // _ m;
  by rewrite !inE => /orP [] /eqP ->.
Qed.





(** ** Covariance-ratio estimator *)

(** C1.  For a table with at least three measurement columns (of distinct
    names) and a normalization [(name, value)] whose name is one of the
    columns, [loadings_from_covs] returns a loadings vector over the
    columns in which the loading of the normalized measurement is the
    normalization value, and the loading of every other measurement [m] is
    the arithmetic mean, over the measurements [m'] other than [m] and the
    normalized one, of [value * cov(m, m') / cov(name, m')], the covariances
    being the sample covariances of the table. *)
Theorem loadings_from_covs_correct (data : DataFrame string) (name : string)
    (value : rat) :
  (3 <= size (names data))%N -> uniq (names data) -> name \in names data ->
  exists2 loadings,
    loadings_from_covs data (Some (name, value)) = Ok loadings &
    [/\ [seq p.1 | p <- loadings] = names data,
        Series_get loadings name = Ok (Fin value) &
        forall m, m \in names data -> m != name ->
          Series_get loadings m
          = Ok (np_mean
                  [seq (Fin value * cov_of data m m' / cov_of data name m')%F
                  | m' <- names data & (m' != m) && (m' != name)])].
Proof.
move=> Hsz _ Hin.
exists [seq (m, loading_spec data name value m) | m <- names data].
  exact: loadings_from_covsE.
split.
- exact: labels_graph.
- by rewrite /Series_get assoc_graph //= /loading_spec eqxx.
- move=> m Hm Hne.
  by rewrite /Series_get assoc_graph //= /loading_spec Hne /others.
Qed.

Lemma loadings_from_covs_correct_witness :
  [/\ (3 <= size (names Sample.table))%N, uniq (names Sample.table),
      "a"%string \in names Sample.table &
      exists2 loadings,
        loadings_from_covs Sample.table (Some ("a"%string, 2)) = Ok loadings
        & Series_get loadings "a"%string = Ok (Fin 2)].
Proof.
split=> //.
case: (@loadings_from_covs_correct Sample.table "a"%string 2 isT isT isT).
by move=> loadings E [_ H _]; exists loadings.
Defined.

(** C7.  [loadings_from_covs] stops with the assertion error on three or
    more measurements being needed exactly when the table has fewer than
    three columns: with fewer than three columns it raises this error and
    returns no loadings, whatever the normalization; with three or more
    columns it never raises it. *)
Theorem loadings_from_covs_insufficient (data : DataFrame string)
    (normalization_ : normalization) :
  loadings_from_covs data normalization_ = Raise AssertionError
  <-> (size (names data) < 3)%N.
Proof.
rewrite /loadings_from_covs; case: (ltnP 2 (size (names data))) => H /=.
  rewrite ltnNge H; split=> //.
  case: normalization_ => [[load_norm load_norm_val]|] //.
  by move/loadings_loop_exn.
by split.
Qed.

(** C6, as the code has it.  When the sample covariance between the
    normalized measurement and a third measurement [m'] is exactly zero,
    [loadings_from_covs] raises no error: it returns a loadings vector in
    which the loading of every measurement other than the normalized one
    and [m'] is not finite (an infinity or NaN). *)
Theorem loadings_from_covs_zero_denominator (data : DataFrame string)
    (name : string) (value : rat) (m' : string) :
  (3 <= size (names data))%N -> uniq (names data) -> name \in names data ->
  m' \in names data -> m' != name -> cov_of data name m' = Fin 0 ->
  exists2 loadings,
    loadings_from_covs data (Some (name, value)) = Ok loadings &
    forall m, m \in names data -> m != name -> m != m' ->
      exists2 l, Series_get loadings m = Ok l & ~~ finite l.
Proof.
move=> Hsz _ Hin Hm' Hne Hcov.
exists [seq (m, loading_spec data name value m) | m <- names data].
  exact: loadings_from_covsE.
move=> m Hm Hmn Hmm'; exists (loading_spec data name value m).
  by rewrite /Series_get assoc_graph.
exact: (loading_spec_nonfinite _ Hm' Hne Hmn Hmm' Hcov).
Qed.

Lemma loadings_from_covs_zero_denominator_witness :
  [/\ (3 <= size (names Sample.table))%N, uniq (names Sample.table),
      "a"%string \in names Sample.table, "b"%string \in names Sample.table
      & "b"%string != "a"%string]
  /\ cov_of Sample.table "a"%string "b"%string = Fin 0
  /\ exists2 loadings,
       loadings_from_covs Sample.table (Some ("a"%string, 1)) = Ok loadings
       & exists2 l, Series_get loadings "c"%string = Ok l & ~~ finite l.
Proof.
split=> //; split; first exact: sample_cov_zero.
case: (@loadings_from_covs_zero_denominator Sample.table "a"%string 1
         "b"%string isT isT isT isT isT sample_cov_zero).
by move=> loadings E H; exists loadings => //; exact: (H "c"%string).
Defined.

(** C6, as the specification has it, fails: on the sample table the
    covariance of the normalized measurement [a] with [b] is zero, and the
    function returns a loadings vector with an infinite loading for [c]. *)
Lemma loadings_from_covs_zero_denominator_counterexample :
  cov_of Sample.table "a"%string "b"%string = Fin 0
  /\ loadings_from_covs Sample.table (Some ("a"%string, 1))
     = Ok [:: ("a"%string, Fin 1); ("b"%string, Fin (- (1 / 15%:Q)));
              ("c"%string, Inf true)].
Proof. by split; apply/eqP; vm_compute. Qed.

(** ** Mean-based intercept estimator *)

(** C2.  [intercepts_from_means] has two modes.  With the empty
    normalization it returns, for every measurement, the sample mean of its
    column, and no factor mean.  With a normalization [(name, value)] naming
    a column, and a loadings vector that has every measurement, it returns
    the factor mean [(mean(name) - value) / loading(name)], for every other
    measurement [m] the intercept [mean(m) - loading(m) * factor_mean], and
    for the normalized measurement the intercept [value]. *)
Theorem intercepts_from_means_modes (data : DataFrame string)
    (loadings : Series string) :
  (exists2 intercepts,
     intercepts_from_means data None loadings = Ok (intercepts, None) &
     [seq p.1 | p <- intercepts] = names data /\
     forall m, m \in names data ->
       Series_get intercepts m = Ok (mean_of data m))
  /\
  (forall name value,
     uniq (names data) -> name \in names data ->
     {subset names data <= [seq p.1 | p <- loadings]} ->
     exists intercepts factor_mean,
       [/\ intercepts_from_means data (Some (name, value)) loadings
           = Ok (intercepts, Some factor_mean),
           factor_mean
           = ((mean_of data name - Fin value) / loading_of loadings name)%F,
           [seq p.1 | p <- intercepts] = names data,
           Series_get intercepts name = Ok (Fin value) &
           forall m, m \in names data -> m != name ->
             Series_get intercepts m
             = Ok (mean_of data m - loading_of loadings m * factor_mean)%F]).
Proof.
split.
  exists (DataFrame_mean data); first by [].
  split; first by rewrite /DataFrame_mean /names -map_comp.
  move=> m /assoc_mem [c Hc].
  by rewrite /Series_get /DataFrame_mean /mean_of (assoc_map column_mean) Hc.
move=> name value _ Hin Hsub.
exists [seq (m, intercept_spec data loadings name value m) | m <- names data].
exists (factor_mean_spec data loadings name value).
split=> //.
- exact: intercepts_from_meansE.
- exact: labels_graph.
- by rewrite /Series_get assoc_graph //= /intercept_spec eqxx.
- move=> m Hm Hne.
  by rewrite /Series_get assoc_graph //= /intercept_spec Hne.
Qed.

Lemma intercepts_from_means_modes_witness :
  [/\ uniq (names Sample.table), "a"%string \in names Sample.table,
      {subset names Sample.table <= [seq p.1 | p <- Sample.loadings]} &
      exists intercepts factor_mean,
        intercepts_from_means Sample.table (Some ("a"%string, 0))
          Sample.loadings = Ok (intercepts, Some factor_mean)
        /\ Series_get intercepts "a"%string = Ok (Fin 0)].
Proof.
have Hsub : {subset names Sample.table <= [seq p.1 | p <- Sample.loadings]}.
  by [].
split=> //.
case: (intercepts_from_means_modes Sample.table Sample.loadings) => _ H.
case: (H "a"%string 0 isT isT Hsub) => intercepts [fm [E _ _ Ha _]].
by exists intercepts, fm.
Defined.

(** ** Covariance decomposer *)

(** C3.  [meas_cov] is a finite covariance matrix over the measurement
    names [labels] (distinct), [loadings] are finite and nonzero, and
    [meas_per_factor] gives each factor a list of distinct measurements,
    the lists of two factors having no measurement in common.  Then the
    de-scaled matrix is [cov[i, j] / (loading_i * loading_j)] entry by
    entry; the factor covariances are, for each factor of the sorted list
    with itself and with every later factor, the mean of the de-scaled
    entries over the pairs of their measurements, a measurement not being
    paired with itself; and the error variance of a measurement of a factor
    is its de-scaled variance minus that factor's variance estimate, times
    the square of its loading. *)
Theorem factor_covs_and_measurement_error_variances_correct
    (labels : seq string) (meas_per_factor : seq (string * seq string))
    (meas_cov : seq (seq num)) (loadings : seq num) :
  let n := size labels in
  let factors := sorted_factors meas_per_factor in
  let mlist := meas meas_per_factor in
  uniq labels -> size loadings = n ->
  all (fun l => finite l && (l != Fin 0)) loadings ->
  (forall i j, (i < n)%N -> (j < n)%N -> finite (entry meas_cov i j)) ->
  uniq [seq p.1 | p <- meas_per_factor] ->
  (forall f, f \in factors -> uniq (mlist f)) ->
  (forall f, f \in factors -> {subset mlist f <= labels}) ->
  (forall f g, f \in factors -> g \in factors -> f != g ->
     forall m, m \in mlist f -> m \notin mlist g) ->
  (forall i j, (i < n)%N -> (j < n)%N ->
     entry (scale_cov labels meas_cov loadings) i j
     = (entry meas_cov i j / (nth NaN loadings i * nth NaN loadings j))%F)
  /\
  exists factor_covs meas_error_variances,
    [/\ factor_covs_and_measurement_error_variances labels meas_per_factor
          meas_cov loadings = Ok (factor_covs, meas_error_variances),
        factor_covs
        = upper (block_mean labels meas_per_factor meas_cov loadings) factors,
        [seq p.1 | p <- meas_error_variances] = labels &
        forall f m, f \in factors -> m \in mlist f ->
          Series_get meas_error_variances m
          = Ok ((descaled labels meas_cov loadings m m
                 - block_mean labels meas_per_factor meas_cov loadings f f)
                * sqr (loading labels loadings m))%F].
Proof.
move=> n factors mlist Hu Hsz Hnz Hfin Hk Hmu Hml Hdis; split.
  by move=> i j Hi Hj; case: (scale_covE Hsz Hnz Hfin Hi Hj).
eexists; eexists; split.
- exact: decomposer_specE.
- by [].
- exact: labels_graph.
- move=> f m Hf Hm; rewrite /Series_get (assoc_graph _ (Hml f Hf m Hm)) /=.
  by congr (Ok (_ * _)%F); exact: own_variancesE.
Qed.

Lemma factor_covs_and_measurement_error_variances_correct_witness :
  [/\ uniq Sample.labels, size Sample.loadings_row = size Sample.labels,
      all (fun l => finite l && (l != Fin 0)) Sample.loadings_row &
      uniq [seq p.1 | p <- Sample.meas_per_factor]]
  /\ exists factor_covs meas_error_variances,
       [/\ factor_covs_and_measurement_error_variances Sample.labels
             Sample.meas_per_factor Sample.meas_cov Sample.loadings_row
           = Ok (factor_covs, meas_error_variances),
           factor_covs
           = upper (block_mean Sample.labels Sample.meas_per_factor
                      Sample.meas_cov Sample.loadings_row)
               [:: "fac1"; "fac2"]%string &
           Series_get meas_error_variances "m2"%string
           = Ok ((descaled Sample.labels Sample.meas_cov Sample.loadings_row
                    "m2"%string "m2"%string
                  - block_mean Sample.labels Sample.meas_per_factor
                      Sample.meas_cov Sample.loadings_row
                      "fac1"%string "fac1"%string)
                 * sqr (loading Sample.labels Sample.loadings_row
                          "m2"%string))%F].
Proof.
split; first by split=> //; exact: sample_loadings_nonzero.
case: (@factor_covs_and_measurement_error_variances_correct
         Sample.labels Sample.meas_per_factor Sample.meas_cov
         Sample.loadings_row isT erefl sample_loadings_nonzero
         sample_meas_cov_finite isT sample_meas_uniq sample_meas_labels
         sample_meas_disjoint) => _ [covs [mev [E Hc _ Hm]]].
exists covs, mev; split=> //.
exact: (Hm "fac1"%string "m2"%string).
Defined.

(** ** IV/GMM engine *)







(** C10.  [iv_reg] does not validate [fit_method]: for every string other
    than ['optimal'] it returns the one-step estimate, and the two-step
    refinement runs for ['optimal'] only. *)
Theorem iv_reg_fit_method
    (pinv : forall m : nat, 'M[num]_m -> result 'M[num]_m)
    (nobs k k_prime : nat) (y : 'cV[num]_nobs) (x : 'M[num]_(nobs, k))
    (z : 'M[num]_(nobs, k_prime)) :
  (forall fit_method : string, fit_method != "optimal"%string ->
     iv_reg pinv y x z fit_method = one_step pinv y x z)
  /\ iv_reg pinv y x z "optimal"
     = (one_step pinv y x z >>= fun beta =>
        let u := \matrix_(i, j) (y i j - dot x beta i j)%F in
        _iv_gmm_weights pinv z (Some u) >>= fun w => _iv_math pinv y x z w).
Proof.
split=> [fm /negbTE Hfm|]; rewrite /iv_reg /one_step.
  case: (_iv_gmm_weights pinv z None) => [w|e] //=.
  by case: (_iv_math pinv y x z w) => [beta|e] //=; rewrite Hfm.
by case: (_iv_gmm_weights pinv z None) => [w|e] //=.
Qed.

Lemma iv_reg_fit_method_witness :
  "ols"%string != "optimal"%string
  /\ iv_reg pinv_scalar (lift Sample.two) (lift Sample.one) (lift Sample.one)
       "ols"
     = one_step pinv_scalar (lift Sample.two) (lift Sample.one)
         (lift Sample.one).
Proof.
split; first by [].
case: (iv_reg_fit_method pinv_scalar (lift Sample.two) (lift Sample.one)
         (lift Sample.one)) => H _.
exact: (H "ols"%string isT).
Defined.

(** ** Assembly of the IV arrays *)

(** C5, as the code has it.  When listwise deletion over the used variables
    leaves no row, [iv_reg_array_dict] checks nothing and raises no error
    of its own: once the formula function of the transition is found, it
    hands tables without rows to [dmatrix] for the regressors and for the
    instruments, and returns the two arrays [dmatrix] gives with an empty
    dependent array and an empty row index. *)
Theorem iv_reg_array_dict_zero_rows (formula : Type)
    (tf : string ->
          option (seq string -> seq (seq string) -> formula * formula))
    (dmatrix : formula -> DataFrame string -> result (seq (seq rat)))
    (depvar_name : string) (indepvar_names : seq string)
    (instrument_names : seq (seq string)) (transition_name : string)
    (data selected : DataFrame key)
    (formula_func : seq string -> seq (seq string) -> formula * formula) :
  select data (used_variables depvar_name indepvar_names instrument_names)
  = Ok selected ->
  index (dropna selected) = [::] ->
  tf (String.append "iv_formula_" transition_name) = Some formula_func ->
  exists x_frame z_frame : DataFrame string,
    [/\ zero_rows x_frame, zero_rows z_frame &
        iv_reg_array_dict tf dmatrix depvar_name indepvar_names
          instrument_names transition_name data
        = (dmatrix (formula_func indepvar_names instrument_names).1 x_frame
           >>= fun indepvars =>
           dmatrix (formula_func indepvar_names instrument_names).2 z_frame
           >>= fun instruments =>
           Ok (mkArrDict [::] indepvars instruments [::]))].
Proof.
move=> Hsel Hzero Htf; rewrite /iv_reg_array_dict Hsel /= Htf /=.
set final := set_constant (set_constant _ _ _) _ _.
have Hfinal : zero_rows final.
  by do 2!apply: set_constant_zero_rows; exact: dropna_zero_rows.
have Hy : ("y"%string, depvar_name) \in names final.
  do 2!apply: set_constant_names; rewrite /names /dropna /= -map_comp.
  move: Hsel; rewrite /select.
  case E: (select_columns _ _) => [cs|e] //= [<-] /=.
  by rewrite (@eq_map _ _ _ fst) // (select_columns_names E) mem_head.
rewrite (column_zero_rows Hfinal Hy) /=.
exists (category_frame final "x"), (category_frame final "z"); split.
- exact: category_frame_zero_rows.
- exact: category_frame_zero_rows.
- case: (formula_func _ _) => fx fz /=.
  by move: Hzero; rewrite /dropna /= => ->.
Qed.

Lemma iv_reg_array_dict_zero_rows_witness :
  [/\ select Sample.wide
        (used_variables "f_t1" [:: "f_t0"%string] [:: [:: "m_t0"%string]])
      = Ok Sample.selected,
      index (dropna Sample.selected) = [::],
      Sample.tf (String.append "iv_formula_" "linear")
      = Some Sample.linear &
      exists x_frame z_frame : DataFrame string,
        iv_reg_array_dict Sample.tf Sample.dmatrix "f_t1"
          [:: "f_t0"%string] [:: [:: "m_t0"%string]] "linear" Sample.wide
        = (Sample.dmatrix [:: "f_t0"; "constant"]%string x_frame
           >>= fun indepvars =>
           Sample.dmatrix [:: "m_t0"; "constant"]%string z_frame
           >>= fun instruments =>
           Ok (mkArrDict [::] indepvars instruments [::]))].
Proof.
split=> //.
case: (@iv_reg_array_dict_zero_rows Sample.formula Sample.tf Sample.dmatrix
         "f_t1" [:: "f_t0"%string] [:: [:: "m_t0"%string]] "linear"
         Sample.wide Sample.selected Sample.linear erefl erefl erefl).
by move=> x_frame [z_frame [_ _ E]]; exists x_frame, z_frame.
Defined.

(** C5, as the specification has it, fails: every row of the sample table
    misses a used variable, and the function returns empty arrays. *)
Lemma iv_reg_array_dict_zero_rows_counterexample :
  [/\ select Sample.wide
        (used_variables "f_t1" [:: "f_t0"%string] [:: [:: "m_t0"%string]])
      = Ok Sample.selected,
      index (dropna Sample.selected) = [::] &
      iv_reg_array_dict Sample.tf Sample.dmatrix "f_t1" [:: "f_t0"%string]
        [:: [:: "m_t0"%string]] "linear" Sample.wide
      = Ok (mkArrDict [::] [::] [::] [::])].
Proof. by []. Qed.
